(** * flamecs: the component registry and its typed facade (src/registry.ts)

    A shallow embedding of [registry.ts].  The module keeps four pieces of
    module-level state (the jecs world [registry], the table [signals], and
    the two maps [components] and [idToKey]) and exposes the operations
    [component], [set], [insert], [add], [remove], [get], [has], [spawn],
    [despawn] and the two accessors [added] and [removed].

    The entity/component Store (jecs) is an external collaborator: it is an
    interface here, and every theorem holds for every implementation of it.
    The calls made on the Store are recorded, in order, in a ghost log.

    What the embedding takes for granted: a call on the Store returns (it
    is a total function of the world), and the handlers that the Store
    runs from inside a call do not call back into this module. *)

From Stdlib Require Import ZArith List String Lia.
From stdpp Require Import base option list gmap strings.

Set Warnings "-register-all".

Local Open Scope string_scope.
Local Open Scope Z_scope.
Local Open Scope list_scope.

(** ** Values *)

(** Component data ([unknown] in the source).  Arrays are needed because
    [insert] hands a whole array to the Store. *)
Inductive Value : Type :=
| VUndefined
| VBool (b : bool)
| VNum (n : Z)
| VStr (s : string)
| VArray (xs : list Value).

(** Modelled from the spec: [createSignal] of signal.ts, which is not part
    of the sources at hand.  A Signal is an object with identity, holding
    its subscribers in subscription order; it is created without
    subscribers and nothing destroys it.  An object is referred to by its
    position in the heap of Signal objects. *)
Definition Signal : Type := nat.
Definition Handler : Type := nat.
Definition SignalHeap : Type := list (list Handler).

(** The three arrow functions that [component] registers as hooks: two of
    them fire a signal with the entity, the third with entity and data. *)
Inductive Closure : Type :=
| FireEntity (sig : Signal)
| FireEntityData (sig : Signal).

(** What [registry.set] receives as its third argument. *)
Inductive Payload : Type :=
| Data (v : Value)
| Hook (c : Closure).

(** ** The Store interface (jecs [World]) *)

Class Store (W : Type) : Type := {
  OnAdd : Z;
  OnRemove : Z;
  OnSet : Z;
  world_entity : W -> Z * W;
  world_component : W -> Z * W;
  world_set : W -> Z -> Z -> Payload -> W;
  world_add : W -> Z -> Z -> W;
  world_remove : W -> Z -> Z -> W;
  world_get : W -> Z -> Z -> option Payload;
  world_has : W -> Z -> Z -> bool;
  world_delete : W -> Z -> W
}.

(** One entry of the ghost log per call on [registry]. *)
Inductive StoreCall : Type :=
| CEntity
| CComponent
| CSet (target id : Z) (p : Payload)
| CAdd (e id : Z)
| CRemove (e id : Z)
| CGet (e id : Z)
| CHas (e id : Z)
| CDelete (e : Z).

Definition is_component_call (c : StoreCall) : bool :=
  match c with CComponent => true | _ => false end.

Definition is_entity_call (c : StoreCall) : bool :=
  match c with CEntity => true | _ => false end.

(** The calls [registry.set(entity, id, data)] that store component data,
    as opposed to the registrations of hooks. *)
Definition data_set (c : StoreCall) : option (Z * Z * Value) :=
  match c with
  | CSet e id (Data v) => Some (e, id, v)
  | _ => None
  end.

Definition data_sets (cs : list StoreCall) : list (Z * Z * Value) :=
  omap data_set cs.

(** ** Module state *)

Record State (W : Type) : Type := mkState {
  registry : W;
  calls : list StoreCall;
  components : gmap string Z;
  idToKey : gmap Z string;
  signals_added : gmap Z Signal;
  signals_changed : gmap Z Signal;
  signals_removed : gmap Z Signal;
  signal_heap : SignalHeap
}.

Arguments mkState {W}.
Arguments registry {W}.
Arguments calls {W}.
Arguments components {W}.
Arguments idToKey {W}.
Arguments signals_added {W}.
Arguments signals_changed {W}.
Arguments signals_removed {W}.
Arguments signal_heap {W}.


(** ** Outcomes: a Luau error aborts the operation and keeps the state
    reached so far. *)

Inductive Res (A : Type) : Type :=
| Ok (a : A)
| Err (msg : string).

Arguments Ok {A}.
Arguments Err {A}.

Definition M (W A : Type) : Type := State W -> Res A * State W.

Definition ret {W A} (a : A) : M W A := fun s => (Ok a, s).

Definition bind {W A B} (m : M W A) (k : A -> M W B) : M W B :=
  fun s =>
    match m s with
    | (Ok a, s') => k a s'
    | (Err msg, s') => (Err msg, s')
    end.

Definition error {W A} (msg : string) : M W A := fun s => (Err msg, s).

Definition gets {W A} (f : State W -> A) : M W A := fun s => (Ok (f s), s).

Definition modify {W} (f : State W -> State W) : M W unit :=
  fun s => (Ok tt, f s).

Notation "x <- m ;; k" := (bind m (fun x => k))
  (at level 100, m at next level, right associativity).
Notation "m ;; k" := (bind m (fun _ => k))
  (at level 100, right associativity).

(** The message of Luau's [assert]. *)
Definition assertion_failed : string := "assertion failed!".

Section Registry.

Context {W : Type} `{Store W}.

(** *** Field updates *)

Definition with_registry (w : W) (s : State W) : State W :=
  mkState w (calls s) (components s) (idToKey s)
          (signals_added s) (signals_changed s) (signals_removed s)
          (signal_heap s).

Definition log (c : StoreCall) (s : State W) : State W :=
  mkState (registry s) (calls s ++ [c]) (components s) (idToKey s)
          (signals_added s) (signals_changed s) (signals_removed s)
          (signal_heap s).

Definition components_set (k : string) (id : Z) (s : State W) : State W :=
  mkState (registry s) (calls s) (<[k := id]> (components s)) (idToKey s)
          (signals_added s) (signals_changed s) (signals_removed s)
          (signal_heap s).

Definition idToKey_set (id : Z) (k : string) (s : State W) : State W :=
  mkState (registry s) (calls s) (components s) (<[id := k]> (idToKey s))
          (signals_added s) (signals_changed s) (signals_removed s)
          (signal_heap s).

Definition signals_added_set (id : Z) (sig : Signal) (s : State W) : State W :=
  mkState (registry s) (calls s) (components s) (idToKey s)
          (<[id := sig]> (signals_added s)) (signals_changed s)
          (signals_removed s) (signal_heap s).

Definition signals_changed_set (id : Z) (sig : Signal) (s : State W) : State W :=
  mkState (registry s) (calls s) (components s) (idToKey s)
          (signals_added s) (<[id := sig]> (signals_changed s))
          (signals_removed s) (signal_heap s).

Definition signals_removed_set (id : Z) (sig : Signal) (s : State W) : State W :=
  mkState (registry s) (calls s) (components s) (idToKey s)
          (signals_added s) (signals_changed s)
          (<[id := sig]> (signals_removed s)) (signal_heap s).

(** *** The calls on [registry] *)

Definition registry_entity : M W Z :=
  fun s => let '(e, w) := world_entity (registry s) in
           (Ok e, log CEntity (with_registry w s)).

Definition registry_component : M W Z :=
  fun s => let '(id, w) := world_component (registry s) in
           (Ok id, log CComponent (with_registry w s)).

Definition registry_set (target id : Z) (p : Payload) : M W unit :=
  fun s => (Ok tt, log (CSet target id p)
                       (with_registry (world_set (registry s) target id p) s)).

Definition registry_add (e id : Z) : M W unit :=
  fun s => (Ok tt, log (CAdd e id)
                       (with_registry (world_add (registry s) e id) s)).

Definition registry_remove (e id : Z) : M W unit :=
  fun s => (Ok tt, log (CRemove e id)
                       (with_registry (world_remove (registry s) e id) s)).

Definition registry_get (e id : Z) : M W (option Payload) :=
  fun s => (Ok (world_get (registry s) e id), log (CGet e id) s).

Definition registry_has (e id : Z) : M W bool :=
  fun s => (Ok (world_has (registry s) e id), log (CHas e id) s).

Definition registry_delete (e : Z) : M W unit :=
  fun s => (Ok tt, log (CDelete e)
                       (with_registry (world_delete (registry s) e) s)).

(** Modelled from the spec: [createSignal] (signal.ts) makes a new Signal
    object without subscribers. *)
Definition createSignal : M W Signal :=
  fun s => (Ok (List.length (signal_heap s)),
            mkState (registry s) (calls s) (components s) (idToKey s)
                    (signals_added s) (signals_changed s) (signals_removed s)
                    (signal_heap s ++ [[]])).

(** *** [assert] on an optional key

    [key] has a string type, and an assertion in TypeScript tests the
    truthiness of its argument: it fails on [undefined] and on the empty
    string, the two falsy values of that type.  The theorems below are
    about keys that pass it. *)
Definition truthy (k : string) : bool :=
  match k with
  | EmptyString => false
  | String _ _ => true
  end.

Definition assert_key (key : option string) : M W string :=
  match key with
  | Some k => if truthy k then ret k else error assertion_failed
  | None => error assertion_failed
  end.

(** [assert(keys)]: an array is truthy, only [undefined] fails. *)
Definition assert_keys (keys : option (list string)) : M W (list string) :=
  match keys with
  | Some ks => ret ks
  | None => error assertion_failed
  end.

(** *** The accessors (registry.ts 19-25)

    [signals.added[id]!]: the [!] is erased by the compiler, the lookup
    yields [undefined] for a missing entry. *)
Definition added (id : Z) : M W (option Signal) :=
  gets (fun s => signals_added s !! id).

Definition removed (id : Z) : M W (option Signal) :=
  gets (fun s => signals_removed s !! id).

(** *** [component] (registry.ts 56-82) *)
Definition component (key : option string) : M W Z :=
  k <- assert_key key ;;
  found <- gets (fun s => components s !! k) ;;
  match found with
  | Some id => ret id
  | None =>
      id <- registry_component ;;
      modify (components_set k id) ;;
      modify (idToKey_set id k) ;;
      addedSignal <- createSignal ;;
      removedSignal <- createSignal ;;
      changedSignal <- createSignal ;;
      modify (signals_added_set id addedSignal) ;;
      modify (signals_removed_set id removedSignal) ;;
      modify (signals_changed_set id changedSignal) ;;
      registry_set id OnAdd (Hook (FireEntity addedSignal)) ;;
      registry_set id OnRemove (Hook (FireEntity removedSignal)) ;;
      registry_set id OnSet (Hook (FireEntityData changedSignal)) ;;
      ret id
  end.

(** *** [set] (registry.ts 93-96) *)
Definition set (entity : Z) (value : Value) (key : option string) : M W unit :=
  id <- component key ;;
  registry_set entity id (Data value).

(** *** [insert] (registry.ts 107-117)

    The loop runs over [keys]; the third argument of [registry.set] is
    [values], the array itself. *)
Fixpoint insert_loop (entity : Z) (values : list Value) (keys : list string)
  : M W unit :=
  match keys with
  | [] => ret tt
  | key :: rest =>
      id <- component (Some key) ;;
      registry_set entity id (Data (VArray values)) ;;
      insert_loop entity values rest
  end.

Definition insert (entity : Z) (values : list Value)
  (keys : option (list string)) : M W unit :=
  ks <- assert_keys keys ;;
  insert_loop entity values ks.

(** *** [add], [remove], [get], [has] (registry.ts 130-176) *)
Definition add (entity : Z) (key : option string) : M W unit :=
  id <- component key ;;
  registry_add entity id.

Definition remove (entity : Z) (key : option string) : M W unit :=
  id <- component key ;;
  registry_remove entity id.

Definition get (entity : Z) (key : option string) : M W (option Payload) :=
  id <- component key ;;
  registry_get entity id.

Definition has (entity : Z) (key : option string) : M W bool :=
  id <- component key ;;
  registry_has entity id.

(** *** [spawn] (registry.ts 187-205)

    [for (const index of $range(0, size - 1))]: the indices
    [0 .. size - 1] in order; [keys[index]] and [bundle[index]] are
    [undefined] past the end of the array. *)
Fixpoint spawn_loop (entity : Z) (bundle : list Value) (keys : list string)
  (indices : list nat) : M W unit :=
  match indices with
  | [] => ret tt
  | index :: rest =>
      let key := keys !! index in
      let data := default VUndefined (bundle !! index) in
      id <- component key ;;
      registry_set entity id (Data data) ;;
      spawn_loop entity bundle keys rest
  end.

Definition spawn (bundle : option (list Value)) (keys : option (list string))
  : M W Z :=
  entity <- registry_entity ;;
  match keys, bundle with
  | Some ks, Some b =>
      let size := List.length b in
      spawn_loop entity b ks (seq 0 size) ;;
      ret entity
  | _, _ => ret entity
  end.

(** *** [despawn] (registry.ts 207-209) *)
Definition despawn (entity : Z) : M W unit :=
  registry_delete entity.

(** ** Sequences of facade operations *)

Inductive Op : Type :=
| OComponent (key : option string)
| OSet (entity : Z) (value : Value) (key : option string)
| OInsert (entity : Z) (values : list Value) (keys : option (list string))
| OAdd (entity : Z) (key : option string)
| ORemove (entity : Z) (key : option string)
| OGet (entity : Z) (key : option string)
| OHas (entity : Z) (key : option string)
| OSpawn (bundle : option (list Value)) (keys : option (list string))
| ODespawn (entity : Z)
| OAdded (id : Z)
| ORemoved (id : Z).

(** The state an operation leaves behind, whether it returns or aborts. *)
Definition exec_op (o : Op) (s : State W) : State W :=
  match o with
  | OComponent key => snd (component key s)
  | OSet e v key => snd (set e v key s)
  | OInsert e vs keys => snd (insert e vs keys s)
  | OAdd e key => snd (add e key s)
  | ORemove e key => snd (remove e key s)
  | OGet e key => snd (get e key s)
  | OHas e key => snd (has e key s)
  | OSpawn b keys => snd (spawn b keys s)
  | ODespawn e => snd (despawn e s)
  | OAdded id => snd (added id s)
  | ORemoved id => snd (removed id s)
  end.

Definition exec (ops : list Op) (s : State W) : State W :=
  fold_left (fun st o => exec_op o st) ops s.

End Registry.

(** The state of the module when it has just been loaded: a world, empty
    maps, no Signal objects, no call made yet. *)
Definition init {W : Type} (w : W) : State W :=
  mkState w [] ∅ ∅ ∅ ∅ ∅ [].

(** ** What the specification says [insert] and [spawn] do

    These two definitions follow the words of the specification, not the
    source: one [set] per positional pair. *)

Section Spec.

Context {W : Type} `{Store W}.

Fixpoint set_each (entity : Z) (pairs : list (Value * string)) : M W unit :=
  match pairs with
  | [] => ret tt
  | (v, k) :: rest => set entity v (Some k) ;; set_each entity rest
  end.

Definition insert_spec (entity : Z) (values : list Value)
  (keys : option (list string)) : M W unit :=
  ks <- assert_keys keys ;;
  set_each entity (zip values ks).

End Spec.

(** ** A reference Store

    Modelled from the spec: the Store is jecs, which is outside this
    repository; section 6 of the specification lists what the facade
    needs from it.  This small implementation of that list is used only
    to run the facade on concrete inputs.  Component identifiers count up
    from 1, entities from 1000, and the three hook identifiers are 257,
    258 and 259. *)
Module RefStore.

Record World : Type := mkWorld {
  next_component : Z;
  next_entity : Z;
  cells : list (Z * Z * option Payload)
}.

Definition same_cell (e id : Z) (c : Z * Z * option Payload) : bool :=
  (fst (fst c) =? e) && (snd (fst c) =? id).

Definition drop_cell (e id : Z) (cs : list (Z * Z * option Payload))
  : list (Z * Z * option Payload) :=
  List.filter (fun c => negb (same_cell e id c)) cs.

Definition entity (w : World) : Z * World :=
  (next_entity w,
   mkWorld (next_component w) (next_entity w + 1) (cells w)).

Definition component (w : World) : Z * World :=
  (next_component w,
   mkWorld (next_component w + 1) (next_entity w) (cells w)).

Definition set (w : World) (e id : Z) (p : Payload) : World :=
  mkWorld (next_component w) (next_entity w)
          ((e, id, Some p) :: drop_cell e id (cells w)).

Definition has (w : World) (e id : Z) : bool :=
  existsb (same_cell e id) (cells w).

Definition add (w : World) (e id : Z) : World :=
  if has w e id then w
  else mkWorld (next_component w) (next_entity w) ((e, id, None) :: cells w).

Definition remove (w : World) (e id : Z) : World :=
  mkWorld (next_component w) (next_entity w) (drop_cell e id (cells w)).

Definition get (w : World) (e id : Z) : option Payload :=
  match List.find (same_cell e id) (cells w) with
  | Some (_, _, p) => p
  | None => None
  end.

Definition delete (w : World) (e : Z) : World :=
  mkWorld (next_component w) (next_entity w)
          (List.filter (fun c => negb (fst (fst c) =? e)) (cells w)).

Definition empty : World := mkWorld 1 1000 [].

#[global] Instance store : Store World := {
  OnAdd := 257;
  OnRemove := 258;
  OnSet := 259;
  world_entity := entity;
  world_component := component;
  world_set := set;
  world_add := add;
  world_remove := remove;
  world_get := get;
  world_has := has;
  world_delete := delete
}.

End RefStore.

(** The module just loaded over the empty reference Store. *)
Definition init0 : State RefStore.World := init RefStore.empty.

(** ** Vocabulary of the statements *)

Section Vocabulary.

Context {W : Type} `{Store W}.

(** The identifier the Store hands out next, and the state that the
    creation branch of [component] reaches for the key [k]. *)
Definition mint_id (s : State W) : Z := fst (world_component (registry s)).

Definition mint (k : string) (s : State W) : State W :=
  let id := mint_id s in
  let w := snd (world_component (registry s)) in
  let n := List.length (signal_heap s) in
  let onAdd := Hook (FireEntity n) in
  let onRemove := Hook (FireEntity (S n)) in
  let onSet := Hook (FireEntityData (S (S n))) in
  mkState
    (world_set (world_set (world_set w id OnAdd onAdd) id OnRemove onRemove)
               id OnSet onSet)
    (calls s ++ [CComponent; CSet id OnAdd onAdd; CSet id OnRemove onRemove;
                 CSet id OnSet onSet])
    (<[k := id]> (components s))
    (<[id := k]> (idToKey s))
    (<[id := n]> (signals_added s))
    (<[id := S (S n)]> (signals_changed s))
    (<[id := S n]> (signals_removed s))
    (signal_heap s ++ [[]; []; []]).

(** An action keeps a relation when the state it leaves behind, returning
    or aborting, is related to the state it started from. *)
Definition keeps {A} (R : State W -> State W -> Prop) (m : M W A) : Prop :=
  forall s, R s (snd (m s)).



(** [id] is not the identifier of any interned key: [component] has never
    minted it. *)
Definition unminted (s : State W) (id : Z) : Prop :=
  forall k, components s !! k <> Some id.

(** The signal tables have entries only at minted identifiers. *)
Definition signals_known (s : State W) : Prop :=
  forall id, unminted s id ->
             signals_added s !! id = None /\ signals_removed s !! id = None.

(** The three outcomes of [component]. *)
Inductive component_outcome (key : option string) (s : State W)
  : Res Z * State W -> Prop :=
| outcome_abort :
    (forall k, key = Some k -> truthy k = false) ->
    component_outcome key s (Err assertion_failed, s)
| outcome_hit k id :
    key = Some k -> truthy k = true -> components s !! k = Some id ->
    component_outcome key s (Ok id, s)
| outcome_miss k :
    key = Some k -> truthy k = true -> components s !! k = None ->
    component_outcome key s (Ok (mint_id s), mint k s).

(** Bindings of the memoization table stay as they are. *)
Definition bindings_kept (s s' : State W) : Prop :=
  forall k id, components s !! k = Some id -> components s' !! k = Some id.


(** The signal tables stay within the minted identifiers. *)
Definition known_kept (s s' : State W) : Prop :=
  signals_known s -> signals_known s'.

End Vocabulary.

(** ** Vocabulary of the further statements *)

Section FurtherVocabulary.

Context {W : Type} `{Store W}.

(** The three tables of [signals], and the lookup [signals.<table>[id]]. *)
Inductive Channel : Type :=
| ChAdded
| ChRemoved
| ChChanged.

Definition signal_at (s : State W) (ch : Channel) (id : Z) : option Signal :=
  match ch with
  | ChAdded => signals_added s !! id
  | ChRemoved => signals_removed s !! id
  | ChChanged => signals_changed s !! id
  end.

(** [component] creates the Signals of an identifier in the order added,
    removed, changed. *)
Definition offset (ch : Channel) : nat :=
  match ch with
  | ChAdded => 0
  | ChRemoved => 1
  | ChChanged => 2
  end.

(** The call that registers the hook of a channel: [OnAdd] fires the
    added Signal, [OnRemove] the removed one, [OnSet] the changed one. *)
Definition hook_call (ch : Channel) (id : Z) (sig : Signal) : StoreCall :=
  match ch with
  | ChAdded => CSet id OnAdd (Hook (FireEntity sig))
  | ChRemoved => CSet id OnRemove (Hook (FireEntity sig))
  | ChChanged => CSet id OnSet (Hook (FireEntityData sig))
  end.

(** [id] is the identifier of an interned key. *)
Definition minted (s : State W) (id : Z) : Prop :=
  exists k, components s !! k = Some id.

(** The identifier that a call on the Store names as a component of an
    entity, when it does. *)
Definition component_of_call (c : StoreCall) : option Z :=
  match c with
  | CSet _ id (Data _) => Some id
  | CAdd _ id => Some id
  | CRemove _ id => Some id
  | CGet _ id => Some id
  | CHas _ id => Some id
  | _ => None
  end.

(** [idToKey] and [components] agree. *)
Definition maps_agree (s : State W) : Prop :=
  (forall id k, idToKey s !! id = Some k -> components s !! k = Some id) /\
  (forall k id, components s !! k = Some id -> is_Some (idToKey s !! id)) /\
  (forall k id, components s !! k = Some id -> truthy k = true).

(** The three tables have their entries exactly at the identifiers of
    [idToKey]. *)
Definition tables_follow_idToKey (s : State W) : Prop :=
  forall ch id, is_Some (signal_at s ch id) <-> is_Some (idToKey s !! id).

(** Where the Signal objects of the tables sit in the heap. *)
Definition signals_layout (s : State W) : Prop :=
  (List.length (signal_heap s) mod 3 = 0)%nat /\
  (forall ch id sig,
      signal_at s ch id = Some sig ->
      exists a, signals_added s !! id = Some a /\
                sig = (a + offset ch)%nat /\
                (a mod 3 = 0)%nat /\
                (a + 2 < List.length (signal_heap s))%nat) /\
  (forall id1 id2 a,
      signals_added s !! id1 = Some a -> signals_added s !! id2 = Some a ->
      id1 = id2).


(** The Signal a table holds is one that a registered hook fires. *)
Definition hooks_wired (s : State W) : Prop :=
  forall ch id sig, signal_at s ch id = Some sig ->
                    hook_call ch id sig ∈ calls s.

(** The log against the maps: one identifier request per interned key,
    three Signal objects per interned key, and no entity-level call on an
    identifier that is not minted. *)
Definition log_agrees (s : State W) : Prop :=
  size (components s)
    = List.length (List.filter is_component_call (calls s)) /\
  List.length (signal_heap s) = (3 * size (components s))%nat /\
  (forall c id, c ∈ calls s -> component_of_call c = Some id -> minted s id).

(** The log of [s'] continues the log of [s]. *)
Definition calls_extend (s s' : State W) : Prop :=
  exists rest, calls s' = calls s ++ rest.

(** Pre- and postconditions: [Q] on return, [E] on abort. *)
Definition hoare {A} (P : State W -> Prop) (m : M W A)
  (Q : A -> State W -> Prop) (E : State W -> Prop) : Prop :=
  forall s, P s ->
            match m s with
            | (Ok a, s') => Q a s'
            | (Err _, s') => E s'
            end.

End FurtherVocabulary.

(** * Properties *)

(** ** The monad *)

Section Monad.

Context {W : Type}.

Lemma bind_assoc {A B C} (m : M W A) (f : A -> M W B) (g : B -> M W C) s :
  bind (bind m f) g s = bind m (fun a => bind (f a) g) s.
Proof.
  unfold bind. destruct (m s) as [[a|msg] s1]; reflexivity.
Qed.

Lemma bind_ext {A B} (m : M W A) (f g : A -> M W B) s :
  (forall a s1, f a s1 = g a s1) -> bind m f s = bind m g s.
Proof.
  intros Hfg. unfold bind. destruct (m s) as [[a|msg] s1]; auto.
Qed.

Lemma bind_ret_unit (m : M W unit) s : bind m (fun _ => ret tt) s = m s.
Proof.
  unfold bind, ret. destruct (m s) as [[[]|msg] s1]; reflexivity.
Qed.

Lemma bind_ok {A B} (m : M W A) (f : A -> M W B) s a s1 :
  m s = (Ok a, s1) -> bind m f s = f a s1.
Proof. intros Hm. unfold bind. rewrite Hm. reflexivity. Qed.

Lemma bind_err {A B} (m : M W A) (f : A -> M W B) s msg s1 :
  m s = (Err msg, s1) -> bind m f s = (Err msg, s1).
Proof. intros Hm. unfold bind. rewrite Hm. reflexivity. Qed.

End Monad.

(** Unfolds the state plumbing of the embedding, and nothing else. *)
Ltac run_state :=
  cbv [bind gets ret error modify createSignal
       registry_entity registry_component registry_set registry_add
       registry_remove registry_get registry_has registry_delete
       log with_registry components_set idToKey_set signals_added_set
       signals_changed_set signals_removed_set
       registry calls components idToKey signals_added signals_changed
       signals_removed signal_heap fst snd].

(** ** [component], case by case *)

Section Component.

Context {W : Type} `{Store W}.

Lemma component_absent (s : State W) :
  component None s = (Err assertion_failed, s).
Proof. reflexivity. Qed.

Lemma component_empty_key (s : State W) :
  component (Some "") s = (Err assertion_failed, s).
Proof. reflexivity. Qed.

Lemma component_hit k id (s : State W) :
  truthy k = true -> components s !! k = Some id ->
  component (Some k) s = (Ok id, s).
Proof.
  intros Hk Hfound.
  unfold component, assert_key, bind, gets, ret. rewrite Hk. simpl.
  rewrite Hfound. reflexivity.
Qed.

Lemma component_miss k (s : State W) :
  truthy k = true -> components s !! k = None ->
  component (Some k) s = (Ok (mint_id s), mint k s).
Proof.
  intros Hk Hnone.
  unfold component, assert_key. rewrite Hk.
  cbv [bind gets ret]. rewrite Hnone.
  unfold mint, mint_id. cbv [registry_component].
  destruct (world_component (registry s)) as [id w].
  run_state.
  rewrite !length_app. cbn [List.length]. rewrite !Nat.add_1_r.
  rewrite <- !app_assoc. reflexivity.
Qed.

Lemma component_cases key (s : State W) :
  component_outcome key s (component key s).
Proof.
  destruct key as [k|].
  - destruct (truthy k) eqn:Hk.
    + destruct (components s !! k) as [id|] eqn:Hfound.
      * rewrite (component_hit k id s Hk Hfound). eapply outcome_hit; eauto.
      * rewrite (component_miss k s Hk Hfound). eapply outcome_miss; eauto.
    + replace (component (Some k) s) with (@Err Z assertion_failed, s).
      * apply outcome_abort. intros k' [= <-]. exact Hk.
      * unfold component, assert_key, bind. rewrite Hk. reflexivity.
  - rewrite component_absent. apply outcome_abort. intros k [=].
Qed.

(** With a key that passes the assertion, [component] returns, and the
    key is interned afterwards. *)
Lemma component_returns k (s : State W) :
  truthy k = true ->
  exists id s1, component (Some k) s = (Ok id, s1) /\
                components s1 !! k = Some id.
Proof.
  intros Hk. destruct (components s !! k) as [id|] eqn:Hfound.
  - exists id, s. split; [apply component_hit; assumption | assumption].
  - exists (mint_id s), (mint k s). split.
    + apply component_miss; assumption.
    + unfold mint. simpl. apply lookup_insert_eq.
Qed.

End Component.

(** ** Relations that every facade operation keeps

    A reflexive and transitive relation that the two kinds of Store
    update and [component] keep is kept by every operation and by every
    sequence of operations.  Only [component] writes the maps of the
    module, so this is where the invariants below come from. *)

Section Keeps.

Context {W : Type} `{Store W}.

Variable R : State W -> State W -> Prop.
Hypothesis R_refl : forall s, R s s.
Hypothesis R_trans : forall s1 s2 s3, R s1 s2 -> R s2 s3 -> R s1 s3.
Hypothesis R_log : forall c s, R s (log c s).
Hypothesis R_world : forall w s, R s (with_registry w s).
Hypothesis R_component : forall key, keeps R (component key).

Lemma keeps_ret {A} (a : A) : keeps R (ret a).
Proof. intros s. apply R_refl. Qed.

Lemma keeps_error {A} msg : keeps R (@error W A msg).
Proof. intros s. apply R_refl. Qed.

Lemma keeps_gets {A} (f : State W -> A) : keeps R (gets f).
Proof. intros s. apply R_refl. Qed.

Lemma keeps_bind {A B} (m : M W A) (k : A -> M W B) :
  keeps R m -> (forall a, keeps R (k a)) -> keeps R (bind m k).
Proof.
  intros Hm Hk s. unfold bind. specialize (Hm s).
  destruct (m s) as [[a|msg] s1]; simpl in *.
  - eapply R_trans; [exact Hm | apply Hk].
  - exact Hm.
Qed.

Lemma keeps_logged_update c w : forall s, R s (log c (with_registry w s)).
Proof. intros s. eapply R_trans; [apply R_world | apply R_log]. Qed.

Lemma keeps_registry_entity : keeps R registry_entity.
Proof.
  intros s. unfold registry_entity.
  destruct (world_entity (registry s)) as [e w]. apply keeps_logged_update.
Qed.

Lemma keeps_registry_set e id p : keeps R (registry_set e id p).
Proof. intros s. apply keeps_logged_update. Qed.

Lemma keeps_registry_add e id : keeps R (registry_add e id).
Proof. intros s. apply keeps_logged_update. Qed.

Lemma keeps_registry_remove e id : keeps R (registry_remove e id).
Proof. intros s. apply keeps_logged_update. Qed.

Lemma keeps_registry_get e id : keeps R (registry_get e id).
Proof. intros s. apply R_log. Qed.

Lemma keeps_registry_has e id : keeps R (registry_has e id).
Proof. intros s. apply R_log. Qed.

Lemma keeps_registry_delete e : keeps R (registry_delete e).
Proof. intros s. apply keeps_logged_update. Qed.

Lemma keeps_set e v key : keeps R (set e v key).
Proof.
  apply keeps_bind; [apply R_component | intros id; apply keeps_registry_set].
Qed.

Lemma keeps_insert_loop e values keys : keeps R (insert_loop e values keys).
Proof.
  induction keys as [|key rest IH]; simpl.
  - apply keeps_ret.
  - apply keeps_bind; [apply R_component | intros id].
    apply keeps_bind; [apply keeps_registry_set | intros _; exact IH].
Qed.

Lemma keeps_insert e values keys : keeps R (insert e values keys).
Proof.
  apply keeps_bind.
  - destruct keys; [apply keeps_ret | apply keeps_error].
  - intros ks. apply keeps_insert_loop.
Qed.

Lemma keeps_spawn_loop e bundle keys indices :
  keeps R (spawn_loop e bundle keys indices).
Proof.
  induction indices as [|index rest IH]; simpl.
  - apply keeps_ret.
  - apply keeps_bind; [apply R_component | intros id].
    apply keeps_bind; [apply keeps_registry_set | intros _; exact IH].
Qed.

Lemma keeps_spawn bundle keys : keeps R (spawn bundle keys).
Proof.
  apply keeps_bind; [apply keeps_registry_entity | intros e].
  destruct keys as [ks|]; [destruct bundle as [b|] |]; try apply keeps_ret.
  apply keeps_bind; [apply keeps_spawn_loop | intros _; apply keeps_ret].
Qed.

Lemma keeps_exec_op o s : R s (exec_op o s).
Proof.
  destruct o; simpl.
  - apply R_component.
  - apply keeps_set.
  - apply keeps_insert.
  - apply (keeps_bind _ _ (R_component key)). intros id.
    apply keeps_registry_add.
  - apply (keeps_bind _ _ (R_component key)). intros id.
    apply keeps_registry_remove.
  - apply (keeps_bind _ _ (R_component key)). intros id.
    apply keeps_registry_get.
  - apply (keeps_bind _ _ (R_component key)). intros id.
    apply keeps_registry_has.
  - apply keeps_spawn.
  - apply keeps_registry_delete.
  - apply R_refl.
  - apply R_refl.
Qed.

Lemma keeps_exec ops : forall s, R s (exec ops s).
Proof.
  induction ops as [|o ops IH]; intros s; simpl.
  - apply R_refl.
  - eapply R_trans; [apply keeps_exec_op | apply IH].
Qed.

End Keeps.

(** ** Three relations kept by [component] *)

Section Invariants.

Context {W : Type} `{Store W}.




Lemma bindings_kept_refl (s : State W) : bindings_kept s s.
Proof. intros k id Hk. exact Hk. Qed.

Lemma bindings_kept_component key : keeps bindings_kept (component key).
Proof.
  intros s. destruct (component_cases key s) as [Habort | k id Hkey Hk Hfound | k Hkey Hk Hnone];
    simpl; intros k0 id0 Hk0; auto.
  unfold mint. simpl. rewrite lookup_insert_ne; [exact Hk0 | congruence].
Qed.


Lemma known_kept_component key : keeps known_kept (component key).
Proof.
  intros s. destruct (component_cases key s) as [Habort | k id Hkey Hk Hfound | k Hkey Hk Hnone];
    simpl; intros Hinv; auto.
  intros id Hun. unfold unminted, mint in Hun. simpl in Hun.
  assert (Hne : mint_id s <> id).
  { intros <-. apply (Hun k). apply lookup_insert_eq. }
  unfold mint. simpl. rewrite !lookup_insert_ne by exact Hne.
  apply Hinv. intros k0 Hk0. apply (Hun k0).
  rewrite lookup_insert_ne; [exact Hk0 | congruence].
Qed.

Lemma exec_bindings_kept ops (s : State W) : bindings_kept s (exec ops s).
Proof.
  apply keeps_exec; try (intros; intros k id Hk; assumption).
  - intros s1 s2 s3 H12 H23 k id Hk. auto.
  - apply bindings_kept_component.
Qed.


Lemma exec_known_kept ops (s : State W) : known_kept s (exec ops s).
Proof.
  apply keeps_exec; try (intros; intros Hinv; assumption).
  - intros s1 s2 s3 H12 H23 Hinv. auto.
  - apply known_kept_component.
Qed.


Lemma init_signals_known (w : W) : signals_known (init w).
Proof. intros id _. simpl. rewrite !lookup_empty. split; reflexivity. Qed.

End Invariants.

(** ** The identity registry *)

Section IdentityRegistry.

Context {W : Type} `{Store W}.

(** C1.  For a key that passes the assertion, two calls of [component]
    return the same identifier; the second call leaves the whole state as
    it is (maps, signal tables, Signal objects, Store, and no call on the
    Store); and when the key was not interned before, the two calls
    together ask the Store for an identifier exactly once. *)
Theorem component_idempotent (k : string) (s : State W) :
  truthy k = true ->
  exists id s1 new,
    component (Some k) s = (Ok id, s1) /\
    component (Some k) s1 = (Ok id, s1) /\
    calls s1 = calls s ++ new /\
    (components s !! k = None ->
     List.length (List.filter is_component_call new) = 1%nat) /\
    (is_Some (components s !! k) -> s1 = s).
Proof.
  intros Hk. destruct (components s !! k) as [id|] eqn:Hfound.
  - exists id, s, []. rewrite app_nil_r.
    rewrite !(component_hit k id s Hk Hfound).
    repeat split; auto. discriminate.
  - exists (mint_id s), (mint k s),
      [CComponent;
       CSet (mint_id s) OnAdd (Hook (FireEntity (List.length (signal_heap s))));
       CSet (mint_id s) OnRemove
            (Hook (FireEntity (S (List.length (signal_heap s)))));
       CSet (mint_id s) OnSet
            (Hook (FireEntityData (S (S (List.length (signal_heap s))))))].
    rewrite (component_miss k s Hk Hfound).
    repeat split; auto.
    + apply component_hit; [exact Hk |]. unfold mint. simpl.
      apply lookup_insert_eq.
    + intros [x Hx]. discriminate.
Qed.

(** C8.  Whatever sequence of facade operations runs, returning or
    aborting, a binding of the key-to-identifier table is still there
    afterwards, with the same identifier. *)
Theorem components_only_grows (ops : list Op) (s : State W) k id :
  components s !! k = Some id ->
  components (exec ops s) !! k = Some id.
Proof. apply exec_bindings_kept. Qed.


(** C6, as the code has it.  In every state the module can reach, for an
    identifier that [component] never minted, [added] and [removed]
    return [undefined] without raising an error and without changing
    anything. *)
Theorem accessors_unminted_undefined (w : W) (ops : list Op) (id : Z) :
  unminted (exec ops (init w)) id ->
  added id (exec ops (init w)) = (Ok None, exec ops (init w)) /\
  removed id (exec ops (init w)) = (Ok None, exec ops (init w)).
Proof.
  intros Hun.
  assert (Hs : signals_known (exec ops (init w))).
  { apply (exec_known_kept ops (init w)). apply init_signals_known. }
  destruct (Hs id Hun) as [Ha Hr].
  unfold added, removed, gets. rewrite Ha, Hr. split; reflexivity.
Qed.

(** C10.  [get] and [has] with a key that is not interned yet run the
    creation branch of [component] first: the key is bound to a new
    identifier from the Store, three Signal objects are created and
    entered in the three tables, three hooks are registered, and only
    then is the Store queried. *)
Theorem get_has_intern_unseen_key (e : Z) (k : string) (s : State W) :
  truthy k = true ->
  components s !! k = None ->
  exists id n s1,
    world_component (registry s) = (id, snd (world_component (registry s))) /\
    n = List.length (signal_heap s) /\
    components s1 = <[k := id]> (components s) /\
    signals_added s1 = <[id := n]> (signals_added s) /\
    signals_removed s1 = <[id := S n]> (signals_removed s) /\
    signals_changed s1 = <[id := S (S n)]> (signals_changed s) /\
    signal_heap s1 = signal_heap s ++ [[]; []; []] /\
    calls s1 = calls s ++ [CComponent;
                           CSet id OnAdd (Hook (FireEntity n));
                           CSet id OnRemove (Hook (FireEntity (S n)));
                           CSet id OnSet (Hook (FireEntityData (S (S n))))] /\
    get e (Some k) s = (Ok (world_get (registry s1) e id),
                        log (CGet e id) s1) /\
    has e (Some k) s = (Ok (world_has (registry s1) e id),
                        log (CHas e id) s1).
Proof.
  intros Hk Hnone.
  exists (mint_id s), (List.length (signal_heap s)), (mint k s).
  unfold get, has.
  rewrite !(bind_ok _ _ _ _ _ (component_miss k s Hk Hnone)).
  unfold mint, mint_id.
  destruct (world_component (registry s)) as [id w1]. run_state.
  repeat split; reflexivity.
Qed.

End IdentityRegistry.

(** ** The typed facade: the loops of [spawn] and [insert] *)

Section Facade.

Context {W : Type} `{Store W}.

(** One [set] with a key that passes the assertion: it returns, asks for
    no entity, and stores exactly [value] under the identifier of the
    key. *)
Lemma set_returns e v k (s : State W) :
  truthy k = true ->
  exists id s1 new,
    set e v (Some k) s = (Ok tt, s1) /\
    calls s1 = calls s ++ new /\
    List.filter is_entity_call new = [] /\
    data_sets new = [(e, id, v)] /\
    components s1 !! k = Some id /\
    bindings_kept s s1.
Proof.
  intros Hk. unfold set.
  destruct (components s !! k) as [id|] eqn:Hfound.
  - rewrite (bind_ok _ _ _ _ _ (component_hit k id s Hk Hfound)).
    exists id, (log (CSet e id (Data v))
                    (with_registry (world_set (registry s) e id (Data v)) s)),
           [CSet e id (Data v)].
    repeat split; auto. intros k0 id0 Hk0. exact Hk0.
  - rewrite (bind_ok _ _ _ _ _ (component_miss k s Hk Hfound)).
    exists (mint_id s),
      (log (CSet e (mint_id s) (Data v))
           (with_registry (world_set (registry (mint k s)) e (mint_id s) (Data v))
                          (mint k s))),
      [CComponent;
       CSet (mint_id s) OnAdd (Hook (FireEntity (List.length (signal_heap s))));
       CSet (mint_id s) OnRemove
            (Hook (FireEntity (S (List.length (signal_heap s)))));
       CSet (mint_id s) OnSet
            (Hook (FireEntityData (S (S (List.length (signal_heap s))))));
       CSet e (mint_id s) (Data v)].
    split; [reflexivity |].
    split; [unfold mint; run_state; rewrite <- app_assoc; reflexivity |].
    split; [reflexivity |]. split; [reflexivity |].
    split; [unfold mint; run_state; apply lookup_insert_eq |].
    intros k0 id0 Hk0. unfold mint; run_state.
    rewrite lookup_insert_ne; [exact Hk0 | congruence].
Qed.

(** The loop of [spawn] from position [length b1] on is one [set] per
    pair of the remaining values and keys; when the keys run out first,
    the assertion of [component] aborts the loop there. *)
Lemma spawn_loop_zip e (b2 : list Value) :
  forall (k2 : list string) (b1 : list Value) (k1 : list string) (s : State W),
    List.length b1 = List.length k1 ->
    spawn_loop e (b1 ++ b2) (k1 ++ k2)
               (seq (List.length b1) (List.length b2)) s =
    bind (set_each e (zip b2 k2))
         (fun _ => if (List.length b2 <=? List.length k2)%nat
                   then ret tt else error assertion_failed) s.
Proof.
  induction b2 as [|v b2 IH]; intros k2 b1 k1 s Hlen.
  - reflexivity.
  - destruct k2 as [|k k2].
    + cbn [List.length seq spawn_loop].
      rewrite app_nil_r, (lookup_ge_None_2 k1) by lia. reflexivity.
    + cbn [List.length seq spawn_loop zip_with set_each Nat.leb].
      rewrite (list_lookup_middle k1 k2 k) by lia.
      rewrite (list_lookup_middle b1 b2 v) by lia. cbn [default].
      rewrite bind_assoc. unfold set at 1. rewrite bind_assoc.
      apply bind_ext. intros id s1. apply bind_ext. intros _ s2.
      specialize (IH k2 (b1 ++ [v]) (k1 ++ [k]) s2).
      rewrite <- !app_assoc, !length_app in IH. cbn [List.length app] in IH.
      rewrite !Nat.add_1_r in IH. apply IH. lia.
Qed.

Lemma spawn_unfold (bundle : list Value) (keys : list string) (s : State W) :
  spawn (Some bundle) (Some keys) s =
  bind registry_entity
       (fun e => bind (set_each e (zip bundle keys))
                      (fun _ => if (List.length bundle <=? List.length keys)%nat
                                then ret e else error assertion_failed)) s.
Proof.
  unfold spawn. apply bind_ext. intros e s1.
  unfold bind at 1.
  pose proof (spawn_loop_zip e bundle keys [] [] s1 eq_refl) as Hloop.
  cbn [app List.length] in Hloop. rewrite Hloop.
  unfold bind. destruct (set_each e (zip bundle keys) s1) as [[[]|msg] s2];
    [destruct (List.length bundle <=? List.length keys)%nat |]; reflexivity.
Qed.

(** A run of [set]s with keys that pass the assertion returns. *)
Lemma set_each_returns e (pairs : list (Value * string)) :
  forall s : State W,
    Forall (fun p => truthy (snd p) = true) pairs ->
    exists s', set_each e pairs s = (Ok tt, s').
Proof.
  induction pairs as [|[v k] rest IH]; intros s Hall.
  - exists s. reflexivity.
  - inversion Hall as [|p ps Hk Hrest]; subst. simpl in Hk.
    destruct (set_returns e v k s Hk) as (id & s1 & new & Hrun & _).
    destruct (IH s1 Hrest) as [s' Hs']. exists s'.
    simpl. rewrite (bind_ok _ _ _ _ _ Hrun). exact Hs'.
Qed.

Lemma Forall_zip_snd (P : string -> Prop) (vs : list Value) :
  forall ks, Forall P ks -> Forall (fun p => P (snd p)) (zip vs ks).
Proof.
  induction vs as [|v vs IH]; intros ks Hall; simpl; [constructor |].
  destruct ks as [|k ks]; [constructor |].
  inversion Hall; subst. constructor; auto.
Qed.

(** The calls made by one [set] per positional pair. *)
Lemma set_each_trace e (values : list Value) :
  forall (keys : list string) (s : State W),
    List.length values = List.length keys ->
    Forall (fun k => truthy k = true) keys ->
    exists s' new ids,
      set_each e (zip values keys) s = (Ok tt, s') /\
      calls s' = calls s ++ new /\
      List.filter is_entity_call new = [] /\
      List.length ids = List.length values /\
      data_sets new = zip_with (fun v id => (e, id, v)) values ids /\
      (forall i k id, keys !! i = Some k -> ids !! i = Some id ->
                      components s' !! k = Some id) /\
      bindings_kept s s'.
Proof.
  induction values as [|v values IH]; intros keys s Hlen Hall.
  - exists s, [], []. rewrite app_nil_r.
    repeat split; auto using bindings_kept_refl.
    intros i k id _ Hid. rewrite lookup_nil in Hid. discriminate.
  - destruct keys as [|k keys]; [discriminate |].
    inversion Hall as [|k' ks' Hk Hrest]; subst.
    destruct (set_returns e v k s Hk)
      as (id & s1 & new1 & Hrun & Hcalls1 & Hent1 & Hdata1 & Hid & Hkept1).
    destruct (IH keys s1 ltac:(simpl in Hlen; lia) Hrest)
      as (s' & new2 & ids & Hrest_run & Hcalls2 & Hent2 & Hids & Hdata2 & Hpos & Hkept2).
    exists s', (new1 ++ new2), (id :: ids).
    simpl. rewrite (bind_ok _ _ _ _ _ Hrun).
    split; [exact Hrest_run |].
    split; [rewrite Hcalls2, Hcalls1, app_assoc; reflexivity |].
    split; [rewrite List.filter_app, Hent1, Hent2; reflexivity |].
    split; [simpl; lia |].
    split; [unfold data_sets in *; rewrite omap_app, Hdata1, Hdata2; reflexivity |].
    split.
    + intros [|i] k0 id0 Hk0 Hid0; simpl in *.
      * injection Hk0 as <-. injection Hid0 as <-. apply Hkept2, Hid.
      * eapply Hpos; eauto.
    + intros k0 id0 Hk0. apply Hkept2, Hkept1, Hk0.
Qed.

(** The loop of [insert]: one data call per key, each carrying the whole
    array [values]. *)
Lemma insert_loop_trace e values (keys : list string) :
  forall s : State W,
    Forall (fun k => truthy k = true) keys ->
    exists s' new ids,
      insert_loop e values keys s = (Ok tt, s') /\
      calls s' = calls s ++ new /\
      List.length ids = List.length keys /\
      data_sets new = (fun id => (e, id, VArray values)) <$> ids /\
      (forall i k id, keys !! i = Some k -> ids !! i = Some id ->
                      components s' !! k = Some id).
Proof.
  induction keys as [|k keys IH]; intros s Hall.
  - exists s, [], []. rewrite app_nil_r. repeat split; auto.
    intros i k id _ Hid. rewrite lookup_nil in Hid. discriminate.
  - inversion Hall as [|k' ks' Hk Hrest]; subst.
    destruct (set_returns e (VArray values) k s Hk)
      as (id & s1 & new1 & Hrun & Hcalls1 & _ & Hdata1 & Hid & _).
    destruct (IH s1 Hrest) as (s' & new2 & ids & Hrest_run & Hcalls2 & Hids & Hdata2 & Hpos).
    exists s', (new1 ++ new2), (id :: ids).
    split.
    { simpl. rewrite <- bind_assoc. fold (set e (VArray values) (Some k)).
      rewrite (bind_ok _ _ _ _ _ Hrun). exact Hrest_run. }
    split; [rewrite Hcalls2, Hcalls1, app_assoc; reflexivity |].
    split; [simpl; lia |].
    split; [unfold data_sets in *; rewrite omap_app, Hdata1, Hdata2; reflexivity |].
    intros [|i] k0 id0 Hk0 Hid0; simpl in *.
    + injection Hk0 as <-. injection Hid0 as <-.
      pose proof (exec_bindings_kept [OInsert e values (Some keys)] s1 k id Hid)
        as Hkeep.
      change (components (snd (insert_loop e values keys s1)) !! k = Some id)
        in Hkeep.
      rewrite Hrest_run in Hkeep. exact Hkeep.
    + eapply Hpos; eauto.
Qed.

Lemma insert_loop_returns e values (keys : list string) (s : State W) :
  Forall (fun k => truthy k = true) keys ->
  exists s', insert_loop e values keys s = (Ok tt, s').
Proof.
  intros Hall.
  destruct (insert_loop_trace e values keys s Hall) as (s' & _ & _ & Hrun & _).
  exists s'. exact Hrun.
Qed.

End Facade.

(** ** The typed facade: the claims *)

Section FacadeClaims.

Context {W : Type} `{Store W}.

(** C4.  With as many keys as values, all passing the assertion, [spawn]
    asks the Store for one entity, as its first call, and then does what
    one [set] per positional pair does: the values stored on that entity
    are, in order, [bundle[i]] under the identifier of [keys[i]].  It
    returns the entity.  Without arguments it returns a new entity and
    does nothing else. *)
Theorem spawn_sets_bundle_in_order (bundle : list Value) (keys : list string)
  (s : State W) :
  List.length bundle = List.length keys ->
  Forall (fun k => truthy k = true) keys ->
  exists e w s' new ids,
    world_entity (registry s) = (e, w) /\
    spawn (Some bundle) (Some keys) s = (Ok e, s') /\
    set_each e (zip bundle keys) (log CEntity (with_registry w s)) = (Ok tt, s') /\
    calls s' = calls s ++ CEntity :: new /\
    List.filter is_entity_call new = [] /\
    List.length ids = List.length bundle /\
    data_sets new = zip_with (fun v id => (e, id, v)) bundle ids /\
    (forall i k id, keys !! i = Some k -> ids !! i = Some id ->
                    components s' !! k = Some id) /\
    spawn None None s = (Ok e, log CEntity (with_registry w s)).
Proof.
  intros Hlen Hall.
  destruct (world_entity (registry s)) as [e w] eqn:Hw.
  destruct (set_each_trace e bundle keys (log CEntity (with_registry w s)) Hlen Hall)
    as (s' & new & ids & Hrun & Hcalls & Hent & Hids & Hdata & Hpos & _).
  exists e, w, s', new, ids.
  split; [reflexivity |].
  split.
  { rewrite spawn_unfold. unfold bind at 1, registry_entity. rewrite Hw.
    rewrite (bind_ok _ _ _ _ _ Hrun).
    rewrite (proj2 (Nat.leb_le _ _)) by lia. reflexivity. }
  split; [exact Hrun |].
  split; [rewrite Hcalls; simpl; rewrite <- app_assoc; reflexivity |].
  repeat (split; [assumption |]).
  unfold spawn, bind, registry_entity. rewrite Hw. reflexivity.
Qed.

(** C9.  When one of [bundle] and [keys] is absent and the other is
    present, [spawn] returns the entity the Store hands out and does
    nothing else: no error, no key resolved, no component set. *)
Theorem spawn_one_argument_absent (bundle : list Value) (keys : list string)
  (s : State W) :
  spawn (Some bundle) None s =
    (Ok (fst (world_entity (registry s))),
     log CEntity (with_registry (snd (world_entity (registry s))) s)) /\
  spawn None (Some keys) s =
    (Ok (fst (world_entity (registry s))),
     log CEntity (with_registry (snd (world_entity (registry s))) s)).
Proof.
  unfold spawn, bind, registry_entity.
  destruct (world_entity (registry s)) as [e w]. split; reflexivity.
Qed.

(** C5, as the code has it.  [component], [set], [add], [remove], [get]
    and [has] with an absent key, and [insert] with absent keys, abort on
    the assertion and leave the state as it was.  [spawn] with a bundle
    and absent keys does not abort: it takes an entity from the Store
    and returns it. *)
Theorem absent_key_aborts_except_spawn (e : Z) (v : Value)
  (values bundle : list Value) (s : State W) :
  component None s = (Err assertion_failed, s) /\
  set e v None s = (Err assertion_failed, s) /\
  insert e values None s = (Err assertion_failed, s) /\
  add e None s = (Err assertion_failed, s) /\
  remove e None s = (Err assertion_failed, s) /\
  get e None s = (Err assertion_failed, s) /\
  has e None s = (Err assertion_failed, s) /\
  spawn (Some bundle) None s =
    (Ok (fst (world_entity (registry s))),
     log CEntity (with_registry (snd (world_entity (registry s))) s)).
Proof.
  repeat (split; [reflexivity |]).
  unfold spawn, bind, registry_entity.
  destruct (world_entity (registry s)) as [e' w]. reflexivity.
Qed.

(** C7, as the code has it.  No length is compared.  [insert] runs over
    the keys alone and returns whatever the length of [values].  [spawn]
    runs over the positions of [bundle]: with surplus keys it returns,
    behaving as if the surplus keys were not there; with too few keys it
    aborts on the assertion of [component] at the first position without
    a key, in the state that the bundle cut to the number of keys leaves
    behind. *)
Theorem lengths_are_not_compared (e : Z) (values bundle : list Value)
  (keys : list string) (s : State W) :
  Forall (fun k => truthy k = true) keys ->
  (exists s', insert e values (Some keys) s = (Ok tt, s')) /\
  ((List.length bundle <= List.length keys)%nat ->
   exists e' s',
     spawn (Some bundle) (Some keys) s = (Ok e', s') /\
     spawn (Some bundle) (Some (take (List.length bundle) keys)) s = (Ok e', s')) /\
  ((List.length keys < List.length bundle)%nat ->
   exists e' s',
     spawn (Some (take (List.length keys) bundle)) (Some keys) s = (Ok e', s') /\
     spawn (Some bundle) (Some keys) s = (Err assertion_failed, s')).
Proof.
  intros Hall. split; [| split].
  - unfold insert, bind. simpl. apply insert_loop_returns, Hall.
  - intros Hle. rewrite !spawn_unfold. unfold bind at 1 3, registry_entity.
    destruct (world_entity (registry s)) as [e' w].
    rewrite zip_with_take_r, length_take_le by lia.
    destruct (set_each_returns e' (zip bundle keys)
                (log CEntity (with_registry w s))
                (Forall_zip_snd _ bundle keys Hall)) as [s' Hrun].
    exists e', s'. rewrite !(bind_ok _ _ _ _ _ Hrun).
    rewrite Nat.leb_refl, (proj2 (Nat.leb_le _ _)) by lia.
    split; reflexivity.
  - intros Hlt. rewrite !spawn_unfold. unfold bind at 1 3, registry_entity.
    destruct (world_entity (registry s)) as [e' w].
    rewrite zip_with_take_l, length_take_le by lia.
    destruct (set_each_returns e' (zip bundle keys)
                (log CEntity (with_registry w s))
                (Forall_zip_snd _ bundle keys Hall)) as [s' Hrun].
    exists e', s'. rewrite !(bind_ok _ _ _ _ _ Hrun).
    rewrite Nat.leb_refl, (proj2 (Nat.leb_gt _ _)) by lia.
    split; reflexivity.
Qed.

End FacadeClaims.

(** ** The facade on the reference Store *)

(** C2.  [insert(1000, [10, "alice"], ["HP", "Name"])] on the module just
    loaded returns, and the data it stores under each of the two
    identifiers is the whole array [[10, "alice"]]; one [set] per
    positional pair, as the specification has it, stores [10] under the
    first and ["alice"] under the second. *)
Theorem insert_stores_whole_array :
  fst (insert 1000 [VNum 10; VStr "alice"] (Some ["HP"; "Name"]) init0)
    = Ok tt /\
  data_sets (calls (snd (insert 1000 [VNum 10; VStr "alice"]
                                (Some ["HP"; "Name"]) init0)))
    = [(1000, 1, VArray [VNum 10; VStr "alice"]);
       (1000, 2, VArray [VNum 10; VStr "alice"])] /\
  data_sets (calls (snd (insert_spec 1000 [VNum 10; VStr "alice"]
                                     (Some ["HP"; "Name"]) init0)))
    = [(1000, 1, VNum 10); (1000, 2, VStr "alice")].
Proof. vm_compute. repeat split; reflexivity. Qed.

(** C5 does not hold for [spawn]: with a bundle and absent keys it
    returns entity 1000, having asked the Store for it, and raises no
    error. *)
Lemma spawn_absent_keys_returns :
  fst (spawn (Some [VNum 10]) None init0) = Ok 1000 /\
  calls (snd (spawn (Some [VNum 10]) None init0)) = [CEntity] /\
  ~ (exists msg, spawn (Some [VNum 10]) None init0 = (Err msg, init0)).
Proof.
  split; [reflexivity |]. split; [reflexivity |].
  intros [msg Hrun]. apply (f_equal fst) in Hrun. vm_compute in Hrun.
  discriminate.
Qed.

(** C6 does not hold: nothing has been minted in the module just loaded,
    and [added(7)] and [removed(7)] return [undefined] without error. *)
Lemma accessors_unminted_no_error :
  added 7 init0 = (Ok None, init0) /\
  removed 7 init0 = (Ok None, init0) /\
  ~ (exists msg s', added 7 init0 = (Err msg, s')) /\
  ~ (exists msg s', removed 7 init0 = (Err msg, s')).
Proof.
  split; [reflexivity |]. split; [reflexivity |].
  split; intros (msg & s' & Hrun); apply (f_equal fst) in Hrun;
    vm_compute in Hrun; discriminate.
Qed.

(** C7 does not hold: [insert] with one value and two keys returns, and
    so does [spawn] with one value and two keys. *)
Lemma mismatched_lengths_return :
  fst (insert 1000 [VNum 10] (Some ["HP"; "Name"]) init0) = Ok tt /\
  fst (spawn (Some [VNum 10]) (Some ["HP"; "Name"]) init0) = Ok 1000 /\
  ~ (exists msg s', insert 1000 [VNum 10] (Some ["HP"; "Name"]) init0
                    = (Err msg, s')) /\
  ~ (exists msg s', spawn (Some [VNum 10]) (Some ["HP"; "Name"]) init0
                    = (Err msg, s')).
Proof.
  split; [reflexivity |]. split; [reflexivity |].
  split; intros (msg & s' & Hrun); apply (f_equal fst) in Hrun;
    vm_compute in Hrun; discriminate.
Qed.

(** *** The theorems at concrete inputs *)

(** [component_idempotent] at the key ["HP"] in the module just loaded. *)
Lemma component_idempotent_HP :
  truthy "HP" = true /\
  exists id s1,
    component (Some "HP") init0 = (Ok id, s1) /\
    component (Some "HP") s1 = (Ok id, s1).
Proof.
  split; [reflexivity |].
  destruct (component_idempotent "HP" init0 eq_refl)
    as (id & s1 & new & Hfirst & Hsecond & _).
  exists id, s1. split; assumption.
Defined.

(** [components_only_grows] after ["HP"] has been interned. *)
Lemma components_only_grows_HP :
  components (snd (component (Some "HP") init0)) !! "HP" = Some 1 /\
  components (exec [OSpawn (Some [VNum 10]) (Some ["Name"]); ODespawn 1000;
                    OComponent None; OGet 1000 (Some "HP")]
                   (snd (component (Some "HP") init0))) !! "HP" = Some 1.
Proof.
  split; [reflexivity |].
  apply (components_only_grows _ (snd (component (Some "HP") init0)) "HP" 1).
  reflexivity.
Defined.

(** [accessors_unminted_undefined] at identifier 7, when only 1 is minted. *)
Lemma accessors_unminted_undefined_7 :
  unminted (exec [OComponent (Some "HP")] (init RefStore.empty)) 7 /\
  added 7 (exec [OComponent (Some "HP")] (init RefStore.empty))
    = (Ok None, exec [OComponent (Some "HP")] (init RefStore.empty)).
Proof.
  assert (Hun : unminted (exec [OComponent (Some "HP")] (init RefStore.empty)) 7).
  { intros k.
    replace (components (exec [OComponent (Some "HP")] (init RefStore.empty)))
      with (<["HP" := 1]> (∅ : gmap string Z)) by reflexivity.
    destruct (decide ("HP" = k)) as [<-|Hne].
    - rewrite lookup_insert_eq. discriminate.
    - rewrite lookup_insert_ne, lookup_empty by exact Hne. discriminate. }
  split; [exact Hun |].
  apply (accessors_unminted_undefined RefStore.empty [OComponent (Some "HP")] 7 Hun).
Defined.

(** [get_has_intern_unseen_key] at the key ["HP"] in the module just loaded. *)
Lemma get_has_intern_unseen_key_HP :
  truthy "HP" = true /\
  components init0 !! "HP" = None /\
  exists s1,
    components s1 !! "HP" = Some 1 /\
    get 1000 (Some "HP") init0
      = (Ok (world_get (registry s1) 1000 1), log (CGet 1000 1) s1).
Proof.
  split; [reflexivity |]. split; [reflexivity |].
  destruct (get_has_intern_unseen_key 1000 "HP" init0 eq_refl eq_refl)
    as (id & n & s1 & Hid & Hn & Hcomp & _ & _ & _ & _ & _ & Hget & _).
  injection Hid as <-. exists s1. split.
  - rewrite Hcomp. apply lookup_insert_eq.
  - exact Hget.
Defined.

(** [spawn_sets_bundle_in_order] at a bundle of two. *)
Lemma spawn_sets_bundle_in_order_HP_Name :
  List.length [VNum 10; VStr "alice"] = List.length ["HP"; "Name"] /\
  Forall (fun k => truthy k = true) ["HP"; "Name"] /\
  exists e s',
    spawn (Some [VNum 10; VStr "alice"]) (Some ["HP"; "Name"]) init0
      = (Ok e, s').
Proof.
  assert (Hall : Forall (fun k => truthy k = true) ["HP"; "Name"]).
  { repeat constructor. }
  split; [reflexivity |]. split; [exact Hall |].
  destruct (spawn_sets_bundle_in_order [VNum 10; VStr "alice"] ["HP"; "Name"]
              init0 eq_refl Hall)
    as (e & w & s' & new & ids & _ & Hrun & _).
  exists e, s'. exact Hrun.
Defined.

(** [lengths_are_not_compared] with two values and one key. *)
Lemma lengths_are_not_compared_HP :
  Forall (fun k => truthy k = true) ["HP"] /\
  (exists s', insert 1000 [VNum 10; VStr "alice"] (Some ["HP"]) init0
              = (Ok tt, s')) /\
  (exists s', spawn (Some [VNum 10; VStr "alice"]) (Some ["HP"]) init0
              = (Err assertion_failed, s')).
Proof.
  assert (Hall : Forall (fun k => truthy k = true) ["HP"]).
  { repeat constructor. }
  split; [exact Hall |].
  destruct (lengths_are_not_compared 1000 [VNum 10; VStr "alice"]
              [VNum 10; VStr "alice"] ["HP"] init0 Hall)
    as (Hinsert & _ & Hshort).
  split; [exact Hinsert |].
  destruct Hshort as (e' & s' & _ & Hrun); [simpl; lia |].
  exists s'. exact Hrun.
Defined.

(** * Further properties of the module *)

(** ** Invariants of the states the module can reach *)

Ltac open_mint :=
  unfold mint;
  cbn [registry calls components idToKey signals_added signals_changed
       signals_removed signal_heap].

Section Reachable.

Context {W : Type} `{Store W}.

(** A property that the updates of the Store keep and that the creation
    branch of [component] keeps holds after every sequence of
    operations. *)
Lemma exec_invariant (Inv : State W -> Prop) :
  (forall c s, Inv s -> Inv (log c s)) ->
  (forall w s, Inv s -> Inv (with_registry w s)) ->
  (forall k s, truthy k = true -> components s !! k = None ->
               Inv s -> Inv (mint k s)) ->
  forall ops s, Inv s -> Inv (exec ops s).
Proof.
  intros Hlog Hworld Hmint ops s.
  apply (keeps_exec (fun s1 s2 => Inv s1 -> Inv s2)); auto.
  intros key s0.
  destruct (component_cases key s0)
    as [Habort | k id Hkey Hk Hfound | k Hkey Hk Hnone]; simpl; auto.
Qed.

Lemma signal_at_mint k (s : State W) ch id :
  signal_at (mint k s) ch id =
  if decide (mint_id s = id)
  then Some (List.length (signal_heap s) + offset ch)%nat
  else signal_at s ch id.
Proof.
  destruct ch; unfold signal_at; open_mint; rewrite lookup_insert;
    case_decide; try reflexivity; cbn [offset]; f_equal; lia.
Qed.

Lemma maps_agree_exec (w : W) ops : maps_agree (exec ops (init w)).
Proof.
  apply exec_invariant; try (intros; assumption).
  - intros k s Hk Hnone (Hback & Hforth & Htruthy). repeat split.
    + intros id k0. open_mint. rewrite lookup_insert. case_decide.
      * intros [= <-]. subst id. apply lookup_insert_eq.
      * intros Hid. specialize (Hback _ _ Hid).
        rewrite lookup_insert_ne; [exact Hback | congruence].
    + intros k0 id. open_mint. rewrite !lookup_insert.
      case_decide.
      * intros [= <-]. rewrite decide_True by reflexivity. eauto.
      * intros Hk0. case_decide; [eauto | eapply Hforth; eauto].
    + intros k0 id. open_mint. rewrite lookup_insert. case_decide.
      * intros _. subst k0. exact Hk.
      * apply Htruthy.
  - repeat split; intros ? ?; simpl; rewrite lookup_empty;
      discriminate.
Qed.

Lemma tables_follow_idToKey_exec (w : W) ops :
  tables_follow_idToKey (exec ops (init w)).
Proof.
  apply exec_invariant; try (intros; assumption).
  - intros k s Hk Hnone Hinv ch id. rewrite signal_at_mint.
    open_mint. rewrite lookup_insert. case_decide.
    + split; eauto.
    + apply Hinv.
  - intros ch id. destruct ch; simpl; rewrite !lookup_empty;
      split; intros [x Hx]; discriminate.
Qed.

Lemma signals_layout_exec (w : W) ops : signals_layout (exec ops (init w)).
Proof.
  apply exec_invariant; try (intros; assumption).
  - intros k s Hk Hnone (Hheap & Hat & Hinj).
    assert (Hlen : List.length (signal_heap (mint k s))
                   = (List.length (signal_heap s) + 3)%nat).
    { open_mint. rewrite length_app. reflexivity. }
    split; [| split].
    + rewrite Hlen.
      rewrite <- Nat.Div0.add_mod_idemp_l, Hheap. reflexivity.
    + intros ch id sig. rewrite signal_at_mint, Hlen.
      change (signals_added (mint k s) !! id)
        with (signal_at (mint k s) ChAdded id).
      rewrite signal_at_mint. case_decide.
      * intros [= <-]. exists (List.length (signal_heap s)).
        cbn [offset]. repeat split; auto; try lia.
      * intros Hsig. destruct (Hat ch id sig Hsig) as (a & Ha & -> & Hmod & Hlt).
        exists a. repeat split; auto. lia.
    + intros id1 id2 a.
      change (signals_added (mint k s) !! id1)
        with (signal_at (mint k s) ChAdded id1).
      change (signals_added (mint k s) !! id2)
        with (signal_at (mint k s) ChAdded id2).
      rewrite !signal_at_mint. cbn [offset].
      repeat case_decide; try congruence.
      * intros [= <-] Hold.
        destruct (Hat ChAdded id2 _ Hold) as (a & Ha & Heq & _ & Hlt).
        cbn [offset] in Heq. lia.
      * intros Hold [= <-].
        destruct (Hat ChAdded id1 _ Hold) as (a & Ha & Heq & _ & Hlt).
        cbn [offset] in Heq. lia.
      * apply Hinj.
  - split; [reflexivity | split].
    + intros ch id sig. destruct ch; simpl; rewrite lookup_empty; discriminate.
    + intros id1 id2 a. simpl. rewrite lookup_empty. discriminate.
Qed.

Lemma hooks_wired_exec (w : W) ops : hooks_wired (exec ops (init w)).
Proof.
  apply exec_invariant; try (intros; assumption).
  - intros c s Hinv ch id sig Hsig. unfold log. cbn [calls].
    apply elem_of_app. left. apply Hinv. exact Hsig.
  - intros k s Hk Hnone Hinv ch id sig. rewrite signal_at_mint.
    open_mint. rewrite elem_of_app. case_decide.
    + intros [= <-]. right. subst id.
      destruct ch; cbn [hook_call offset];
        rewrite ?Nat.add_0_r, ?Nat.add_1_r, ?(Nat.add_comm _ 2);
        cbn [Nat.add]; repeat constructor.
    + intros Hsig. left. apply Hinv. exact Hsig.
  - intros ch id sig. destruct ch; simpl; rewrite lookup_empty; discriminate.
Qed.

End Reachable.

(** ** Pre- and postconditions *)

Section Hoare.

Context {W : Type} `{Store W}.

Lemma hoare_ret {A} (a : A) (P : State W -> Prop) Q E :
  (forall s, P s -> Q a s) -> hoare P (ret a) Q E.
Proof. intros HPQ s HP. apply HPQ, HP. Qed.

Lemma hoare_error {A} msg (P : State W -> Prop) (Q : A -> State W -> Prop) E :
  (forall s, P s -> E s) -> hoare P (error msg) Q E.
Proof. intros HPE s HP. apply HPE, HP. Qed.

Lemma hoare_bind {A B} (m : M W A) (k : A -> M W B) P Q Q' E :
  hoare P m Q E -> (forall a, hoare (Q a) (k a) Q' E) ->
  hoare P (bind m k) Q' E.
Proof.
  intros Hm Hk s HP. specialize (Hm s HP). unfold bind.
  destruct (m s) as [[a|msg] s1]; [apply Hk, Hm | exact Hm].
Qed.

Lemma hoare_final {A} (m : M W A) (P : State W -> Prop) Q E s :
  hoare P m Q E -> (forall a s', Q a s' -> E s') -> P s -> E (snd (m s)).
Proof.
  intros Hm HQE HP. specialize (Hm s HP).
  destruct (m s) as [[a|msg] s1]; simpl; eauto.
Qed.

End Hoare.

(** ** The log against the maps *)

Section LogAgrees.

Context {W : Type} `{Store W}.

Lemma log_agrees_log c (s : State W) :
  log_agrees s -> is_component_call c = false ->
  (forall id, component_of_call c = Some id -> minted s id) ->
  log_agrees (log c s).
Proof.
  intros (Hsize & Hheap & Hcalls) Hc Hok. unfold log_agrees, log.
  cbn [calls components signal_heap].
  rewrite List.filter_app, length_app. cbn [List.filter]. rewrite Hc.
  cbn [List.length]. rewrite Nat.add_0_r.
  repeat split; auto.
  intros c0 id Hin Hid. apply elem_of_app in Hin as [Hin | Hin].
  - destruct (Hcalls c0 id Hin Hid) as [k Hk]. exists k. exact Hk.
  - apply list_elem_of_singleton in Hin as ->.
    destruct (Hok id Hid) as [k Hk]. exists k. exact Hk.
Qed.

Lemma log_agrees_update c w (s : State W) :
  log_agrees s -> is_component_call c = false ->
  (forall id, component_of_call c = Some id -> minted s id) ->
  log_agrees (log c (with_registry w s)).
Proof. exact (log_agrees_log c s). Qed.

Lemma log_agrees_mint k (s : State W) :
  components s !! k = None -> log_agrees s ->
  log_agrees (mint k s) /\ minted (mint k s) (mint_id s).
Proof.
  intros Hnone (Hsize & Hheap & Hcalls). split.
  - unfold log_agrees. open_mint.
    rewrite map_size_insert_None by exact Hnone.
    rewrite List.filter_app, !length_app. cbn [List.filter is_component_call List.length].
    repeat split; try lia.
    intros c id Hin Hid. apply elem_of_app in Hin as [Hin | Hin].
    + destruct (Hcalls c id Hin Hid) as [k0 Hk0]. exists k0. open_mint.
      rewrite lookup_insert_ne; [exact Hk0 | congruence].
    + rewrite !elem_of_cons, elem_of_nil in Hin.
      destruct Hin as [-> | [-> | [-> | [-> | []]]]]; discriminate.
  - exists k. open_mint. apply lookup_insert_eq.
Qed.

Lemma component_log_agrees key :
  hoare log_agrees (component key)
        (fun id s => log_agrees s /\ minted s id) log_agrees.
Proof.
  intros s Hinv.
  destruct (component_cases key s)
    as [Habort | k id Hkey Hk Hfound | k Hkey Hk Hnone].
  - exact Hinv.
  - split; [exact Hinv | exists k; exact Hfound].
  - apply log_agrees_mint; assumption.
Qed.

(** An entity-level call on the identifier that [component] returned. *)
Lemma call_log_agrees {A} (m : Z -> M W A) key :
  (forall id s, exists a c w,
      m id s = (Ok a, log c (with_registry w s)) /\
      is_component_call c = false /\
      (forall id', component_of_call c = Some id' -> id' = id)) ->
  hoare log_agrees (bind (component key) m) (fun _ => log_agrees) log_agrees.
Proof.
  intros Hm. eapply hoare_bind; [apply component_log_agrees |].
  intros id s [Hinv Hminted].
  destruct (Hm id s) as (a & c & w & -> & Hc & Hid).
  apply log_agrees_update; auto.
  intros id' Hid'. rewrite (Hid id' Hid'). exact Hminted.
Qed.

Lemma set_log_agrees e v key :
  hoare log_agrees (set e v key) (fun _ => log_agrees) log_agrees.
Proof.
  apply call_log_agrees. intros id s.
  exists tt, (CSet e id (Data v)), (world_set (registry s) e id (Data v)).
  repeat split. intros id' [= Heq]. congruence.
Qed.

Lemma insert_loop_log_agrees e values keys :
  hoare log_agrees (insert_loop e values keys) (fun _ => log_agrees) log_agrees.
Proof.
  induction keys as [|k keys IH]; cbn [insert_loop].
  - apply hoare_ret. auto.
  - intros s Hinv. rewrite <- bind_assoc. revert s Hinv.
    eapply hoare_bind; [apply (set_log_agrees e (VArray values) (Some k)) |].
    intros a. exact IH.
Qed.

Lemma spawn_loop_log_agrees e bundle keys indices :
  hoare log_agrees (spawn_loop e bundle keys indices)
        (fun _ => log_agrees) log_agrees.
Proof.
  induction indices as [|i indices IH]; cbn [spawn_loop].
  - apply hoare_ret. auto.
  - intros s Hinv. rewrite <- bind_assoc. revert s Hinv.
    eapply hoare_bind; [apply set_log_agrees |].
    intros a. exact IH.
Qed.

Lemma insert_log_agrees e values keys :
  hoare log_agrees (insert e values keys) (fun _ => log_agrees) log_agrees.
Proof.
  destruct keys as [ks|].
  - intros s. apply insert_loop_log_agrees.
  - intros s Hinv. exact Hinv.
Qed.

Lemma spawn_log_agrees bundle keys :
  hoare log_agrees (spawn bundle keys) (fun _ => log_agrees) log_agrees.
Proof.
  unfold spawn. eapply (hoare_bind _ _ _ (fun _ => log_agrees)).
  - intros s Hinv. unfold registry_entity.
    destruct (world_entity (registry s)) as [e w].
    apply log_agrees_update; auto. intros id [=].
  - intros e. destruct keys as [ks|]; [destruct bundle as [b|] |];
      try (apply hoare_ret; auto).
    eapply hoare_bind; [apply spawn_loop_log_agrees |].
    intros a. apply hoare_ret. auto.
Qed.

Lemma exec_op_log_agrees o (s : State W) :
  log_agrees s -> log_agrees (exec_op o s).
Proof.
  intros Hinv. destruct o; cbn [exec_op].
  - eapply hoare_final; [apply component_log_agrees | | exact Hinv].
    intros a s' [Hs' _]. exact Hs'.
  - eapply hoare_final; [apply set_log_agrees | auto | exact Hinv].
  - eapply hoare_final; [apply insert_log_agrees | auto | exact Hinv].
  - eapply hoare_final; [apply call_log_agrees | auto | exact Hinv].
    intros id s0. exists tt, (CAdd entity id), (world_add (registry s0) entity id).
    repeat split. intros id' [= Heq]. congruence.
  - eapply hoare_final; [apply call_log_agrees | auto | exact Hinv].
    intros id s0.
    exists tt, (CRemove entity id), (world_remove (registry s0) entity id).
    repeat split. intros id' [= Heq]. congruence.
  - eapply hoare_final; [apply call_log_agrees | auto | exact Hinv].
    intros id s0.
    exists (world_get (registry s0) entity id), (CGet entity id), (registry s0).
    repeat split. intros id' [= Heq]. congruence.
  - eapply hoare_final; [apply call_log_agrees | auto | exact Hinv].
    intros id s0.
    exists (world_has (registry s0) entity id), (CHas entity id), (registry s0).
    repeat split. intros id' [= Heq]. congruence.
  - eapply hoare_final; [apply spawn_log_agrees | auto | exact Hinv].
  - apply log_agrees_update; auto. intros id [=].
  - exact Hinv.
  - exact Hinv.
Qed.

Lemma log_agrees_exec (w : W) ops : log_agrees (exec ops (init w)).
Proof.
  assert (Hinit : log_agrees (init w)).
  { repeat split. intros c id Hin. cbn [init calls] in Hin.
    apply elem_of_nil in Hin. destruct Hin. }
  revert Hinit. generalize (init w).
  induction ops as [|o ops IH]; intros s Hinv; cbn [exec fold_left].
  - exact Hinv.
  - apply IH, exec_op_log_agrees, Hinv.
Qed.

End LogAgrees.

(** ** What the reachable states satisfy *)

Section ReachableFacts.

Context {W : Type} `{Store W}.

(** X1.  In every state the module can reach, [idToKey] inverts
    [components]: a key recorded for an identifier is interned under that
    identifier, and it is a key that passes the assertion. *)
Theorem idToKey_inverts_components (w : W) (ops : list Op) (id : Z) (k : string) :
  idToKey (exec ops (init w)) !! id = Some k ->
  components (exec ops (init w)) !! k = Some id /\ truthy k = true.
Proof.
  intros Hid. destruct (maps_agree_exec w ops) as (Hback & _ & Htruthy).
  split; [apply Hback, Hid | eapply Htruthy, Hback, Hid].
Qed.

(** X2.  In every state the module can reach, the identifiers of the
    interned keys, the identifiers recorded in [idToKey] and the
    identifiers with an entry in each of the three signal tables are the
    same. *)
Theorem minted_ids_everywhere (w : W) (ops : list Op) (id : Z) :
  (minted (exec ops (init w)) id <-> is_Some (idToKey (exec ops (init w)) !! id)) /\
  (forall ch, is_Some (signal_at (exec ops (init w)) ch id) <->
              is_Some (idToKey (exec ops (init w)) !! id)).
Proof.
  destruct (maps_agree_exec w ops) as (Hback & Hforth & _). split.
  - split.
    + intros [k Hk]. eapply Hforth, Hk.
    + intros [k Hk]. exists k. apply Hback, Hk.
  - intros ch. apply tables_follow_idToKey_exec.
Qed.

(** X3.  In every state the module can reach, no Signal object is shared:
    when two table entries hold the same object, they are the same entry
    (same table, same identifier). *)
Theorem signal_objects_not_shared (w : W) (ops : list Op)
  (ch1 ch2 : Channel) (id1 id2 : Z) (sig : Signal) :
  signal_at (exec ops (init w)) ch1 id1 = Some sig ->
  signal_at (exec ops (init w)) ch2 id2 = Some sig ->
  ch1 = ch2 /\ id1 = id2.
Proof.
  intros H1 H2. destruct (signals_layout_exec w ops) as (_ & Hat & Hinj).
  destruct (Hat ch1 id1 sig H1) as (a1 & Ha1 & Hsig1 & Hmod1 & _).
  destruct (Hat ch2 id2 sig H2) as (a2 & Ha2 & Hsig2 & Hmod2 & _).
  assert (Hoff : (offset ch1 < 3 /\ offset ch2 < 3)%nat).
  { destruct ch1, ch2; cbn [offset]; lia. }
  assert (Heq : a1 = a2 /\ offset ch1 = offset ch2).
  { apply Nat.Div0.mod_divides in Hmod1 as [q1 ->].
    apply Nat.Div0.mod_divides in Hmod2 as [q2 ->]. lia. }
  destruct Heq as [<- Hoffset]. split.
  - destruct ch1, ch2; cbn [offset] in Hoffset; congruence.
  - eapply Hinj; eauto.
Qed.

(** X4.  In every state the module can reach, the Signal that a table
    holds at an identifier is a Signal that a hook registered on that
    identifier fires: [OnAdd] for [signals.added], [OnRemove] for
    [signals.removed], [OnSet] for [signals.changed]. *)
Theorem hooks_fire_table_signals (w : W) (ops : list Op)
  (ch : Channel) (id : Z) (sig : Signal) :
  signal_at (exec ops (init w)) ch id = Some sig ->
  hook_call ch id sig ∈ calls (exec ops (init w)).
Proof. apply hooks_wired_exec. Qed.

(** X5.  In every state the module can reach, the Store has been asked
    for exactly as many component identifiers as there are interned keys,
    and there are exactly three Signal objects per interned key. *)
Theorem one_allocation_per_key (w : W) (ops : list Op) :
  List.length (List.filter is_component_call (calls (exec ops (init w))))
    = size (components (exec ops (init w))) /\
  List.length (signal_heap (exec ops (init w)))
    = (3 * size (components (exec ops (init w))))%nat.
Proof.
  destruct (log_agrees_exec w ops) as (Hsize & Hheap & _).
  split; [symmetry; exact Hsize | exact Hheap].
Qed.

(** X6.  The facade never names to the Store a component identifier of
    its own making: in every call that stores data, adds, removes, gets
    or tests a component of an entity, the identifier is the one of an
    interned key. *)
Theorem store_sees_only_minted_ids (w : W) (ops : list Op)
  (c : StoreCall) (id : Z) :
  c ∈ calls (exec ops (init w)) ->
  component_of_call c = Some id ->
  exists k, components (exec ops (init w)) !! k = Some id.
Proof.
  destruct (log_agrees_exec w ops) as (_ & _ & Hcalls). apply Hcalls.
Qed.

End ReachableFacts.

(** ** How the operations compose *)

Section Composition.

Context {W : Type} `{Store W}.

(** X7.  Over a Store that gives back what was set, [get] after [set]
    with the same key returns the value that was set, and that [get]
    mints nothing. *)
Theorem set_then_get (e : Z) (v : Value) (k : string) (s : State W) :
  (forall w e' id p, world_get (world_set w e' id p) e' id = Some p) ->
  truthy k = true ->
  exists s1 s2,
    set e v (Some k) s = (Ok tt, s1) /\
    get e (Some k) s1 = (Ok (Some (Data v)), s2) /\
    components s2 = components s1 /\
    registry s2 = registry s1.
Proof.
  intros Hlaw Hk.
  destruct (component_returns k s Hk) as (id & s0 & Hrun & Hid).
  pose (s1 := log (CSet e id (Data v))
                  (with_registry (world_set (registry s0) e id (Data v)) s0)).
  assert (Hid1 : components s1 !! k = Some id) by exact Hid.
  exists s1. eexists. unfold set, get. rewrite (bind_ok _ _ _ _ _ Hrun).
  split; [reflexivity |].
  rewrite (bind_ok _ _ _ _ _ (component_hit k id s1 Hk Hid1)).
  subst s1. unfold registry_get. cbn [registry log with_registry].
  rewrite Hlaw. repeat split.
Qed.

(** X8.  Over a Store where an entity has what was added to it, [has]
    after [add] with the same key returns [true]. *)
Theorem add_then_has (e : Z) (k : string) (s : State W) :
  (forall w e' id, world_has (world_add w e' id) e' id = true) ->
  truthy k = true ->
  exists s1 s2,
    add e (Some k) s = (Ok tt, s1) /\
    has e (Some k) s1 = (Ok true, s2).
Proof.
  intros Hlaw Hk.
  destruct (component_returns k s Hk) as (id & s0 & Hrun & Hid).
  pose (s1 := log (CAdd e id)
                  (with_registry (world_add (registry s0) e id) s0)).
  assert (Hid1 : components s1 !! k = Some id) by exact Hid.
  exists s1. eexists. unfold add, has. rewrite (bind_ok _ _ _ _ _ Hrun).
  split; [reflexivity |].
  rewrite (bind_ok _ _ _ _ _ (component_hit k id s1 Hk Hid1)).
  subst s1. unfold registry_has. cbn [registry log with_registry].
  rewrite Hlaw. reflexivity.
Qed.

(** X9.  Over a Store where an entity does not have what was removed
    from it, [has] after [remove] with the same key returns [false]. *)
Theorem remove_then_has (e : Z) (k : string) (s : State W) :
  (forall w e' id, world_has (world_remove w e' id) e' id = false) ->
  truthy k = true ->
  exists s1 s2,
    remove e (Some k) s = (Ok tt, s1) /\
    has e (Some k) s1 = (Ok false, s2).
Proof.
  intros Hlaw Hk.
  destruct (component_returns k s Hk) as (id & s0 & Hrun & Hid).
  pose (s1 := log (CRemove e id)
                  (with_registry (world_remove (registry s0) e id) s0)).
  assert (Hid1 : components s1 !! k = Some id) by exact Hid.
  exists s1. eexists. unfold remove, has. rewrite (bind_ok _ _ _ _ _ Hrun).
  split; [reflexivity |].
  rewrite (bind_ok _ _ _ _ _ (component_hit k id s1 Hk Hid1)).
  subst s1. unfold registry_has. cbn [registry log with_registry].
  rewrite Hlaw. reflexivity.
Qed.

(** X13.  With a key that is interned already, [get] and [has] only
    query the Store: the maps, the signal tables, the Signal objects and
    the world stay as they are. *)
Theorem get_has_read_only_when_interned (e : Z) (k : string) (id : Z)
  (s : State W) :
  truthy k = true ->
  components s !! k = Some id ->
  get e (Some k) s = (Ok (world_get (registry s) e id), log (CGet e id) s) /\
  has e (Some k) s = (Ok (world_has (registry s) e id), log (CHas e id) s).
Proof.
  intros Hk Hid. unfold get, has.
  rewrite !(bind_ok _ _ _ _ _ (component_hit k id s Hk Hid)).
  split; reflexivity.
Qed.

End Composition.

(** ** Returning and aborting *)

Section Aborts.

Context {W : Type} `{Store W}.

Lemma insert_loop_app e values (ks1 ks2 : list string) :
  forall s : State W,
    insert_loop e values (ks1 ++ ks2) s =
    bind (insert_loop e values ks1) (fun _ => insert_loop e values ks2) s.
Proof.
  induction ks1 as [|k ks1 IH]; intros s.
  - reflexivity.
  - cbn [app insert_loop]. rewrite bind_assoc.
    apply bind_ext. intros id s1. rewrite bind_assoc.
    apply bind_ext. intros _ s2. apply IH.
Qed.

(** X11.  [insert] is not all-or-nothing: when an empty key follows keys
    that pass the assertion, it aborts there, in the state that the keys
    before it have produced. *)
Theorem insert_aborts_midway (e : Z) (values : list Value)
  (ks1 ks2 : list string) (s : State W) :
  Forall (fun k => truthy k = true) ks1 ->
  exists s',
    insert e values (Some ks1) s = (Ok tt, s') /\
    insert e values (Some (ks1 ++ "" :: ks2)) s = (Err assertion_failed, s').
Proof.
  intros Hall.
  destruct (insert_loop_returns e values ks1 s Hall) as [s' Hrun].
  exists s'. split; [exact Hrun |].
  change (insert_loop e values (ks1 ++ "" :: ks2) s = (Err assertion_failed, s')).
  rewrite insert_loop_app, (bind_ok _ _ _ _ _ Hrun). reflexivity.
Qed.

Lemma calls_extend_refl (s : State W) : calls_extend s s.
Proof. exists []. rewrite app_nil_r. reflexivity. Qed.

Lemma calls_extend_trans (s1 s2 s3 : State W) :
  calls_extend s1 s2 -> calls_extend s2 s3 -> calls_extend s1 s3.
Proof.
  intros [r1 H1] [r2 H2]. exists (r1 ++ r2).
  rewrite H2, H1, app_assoc. reflexivity.
Qed.

Lemma calls_extend_component key : keeps calls_extend (component key).
Proof.
  intros s. destruct (component_cases key s)
    as [Habort | k id Hkey Hk Hfound | k Hkey Hk Hnone];
    cbn [snd]; try apply calls_extend_refl.
  eexists. open_mint. reflexivity.
Qed.

(** X12.  The first thing [spawn] does is to take an entity from the
    Store, whatever its arguments and whether it goes on to return or to
    abort; when it returns, it returns that entity. *)
Theorem spawn_requests_entity_first (bundle : option (list Value))
  (keys : option (list string)) (s : State W) :
  (exists rest, calls (snd (spawn bundle keys s)) = calls s ++ CEntity :: rest) /\
  (forall e s', spawn bundle keys s = (Ok e, s') ->
                e = fst (world_entity (registry s))).
Proof.
  destruct (world_entity (registry s)) as [e w] eqn:Hw. cbn [fst].
  set (s0 := log CEntity (with_registry w s)).
  assert (Hs0 : calls s0 = calls s ++ [CEntity]) by reflexivity.
  assert (Hform : spawn bundle keys s =
                  match keys, bundle with
                  | Some ks, Some b =>
                      match spawn_loop e b ks (seq 0 (List.length b)) s0 with
                      | (Ok _, s1) => (Ok e, s1)
                      | (Err msg, s1) => (Err msg, s1)
                      end
                  | _, _ => (Ok e, s0)
                  end).
  { unfold spawn, bind, registry_entity, ret. rewrite Hw.
    destruct keys as [ks|]; [destruct bundle as [b|] |]; reflexivity. }
  rewrite Hform.
  destruct keys as [ks|]; [destruct bundle as [b|] |];
    try (split; [exists []; exact Hs0 | intros e' s' [= <- _]; reflexivity]).
  pose proof (keeps_spawn_loop calls_extend calls_extend_refl
                calls_extend_trans
                ltac:(intros c s1; exists [c]; reflexivity)
                ltac:(intros w1 s1; exists []; symmetry; apply app_nil_r)
                calls_extend_component e b ks (seq 0 (List.length b)) s0)
    as [rest Hrest].
  destruct (spawn_loop e b ks (seq 0 (List.length b)) s0) as [[[]|msg] s1];
    cbn [snd] in *.
  - split; [| intros e' s' [= <- _]; reflexivity].
    exists rest. rewrite Hrest, Hs0, <- app_assoc. reflexivity.
  - split; [| intros e' s' [=]].
    exists rest. rewrite Hrest, Hs0, <- app_assoc. reflexivity.
Qed.

End Aborts.

(** ** The further theorems at concrete inputs *)

Lemma ref_get_set w e id p :
  RefStore.get (RefStore.set w e id p) e id = Some p.
Proof.
  unfold RefStore.get, RefStore.set, RefStore.same_cell. simpl.
  rewrite !Z.eqb_refl. reflexivity.
Qed.

Lemma ref_has_add w e id : RefStore.has (RefStore.add w e id) e id = true.
Proof.
  unfold RefStore.add. destruct (RefStore.has w e id) eqn:Hhas; [exact Hhas |].
  unfold RefStore.has, RefStore.same_cell. simpl.
  rewrite !Z.eqb_refl. reflexivity.
Qed.

Lemma ref_has_remove w e id :
  RefStore.has (RefStore.remove w e id) e id = false.
Proof.
  unfold RefStore.has, RefStore.remove, RefStore.drop_cell. simpl.
  induction (RefStore.cells w) as [|c cs IH]; simpl; [reflexivity |].
  destruct (RefStore.same_cell e id c) eqn:Hc; simpl; [exact IH |].
  rewrite Hc. exact IH.
Qed.

(** [idToKey_inverts_components] after ["HP"] has been interned. *)
Lemma idToKey_inverts_components_HP :
  idToKey (exec [OComponent (Some "HP")] (init RefStore.empty)) !! 1 = Some "HP" /\
  components (exec [OComponent (Some "HP")] (init RefStore.empty)) !! "HP"
    = Some 1.
Proof.
  split; [reflexivity |].
  apply (idToKey_inverts_components RefStore.empty [OComponent (Some "HP")] 1 "HP").
  reflexivity.
Defined.

(** [signal_objects_not_shared] at the changed Signal of the second of
    two interned keys. *)
Lemma signal_objects_not_shared_Name :
  signal_at (exec [OComponent (Some "HP"); OComponent (Some "Name")]
                  (init RefStore.empty)) ChChanged 2 = Some 5%nat /\
  (ChChanged = ChChanged /\ 2 = 2).
Proof.
  split; [reflexivity |].
  apply (signal_objects_not_shared RefStore.empty
           [OComponent (Some "HP"); OComponent (Some "Name")]
           ChChanged ChChanged 2 2 5%nat); reflexivity.
Defined.

(** [hooks_fire_table_signals] at the removed Signal of ["HP"]. *)
Lemma hooks_fire_table_signals_HP :
  signal_at (exec [OComponent (Some "HP")] (init RefStore.empty)) ChRemoved 1
    = Some 1%nat /\
  hook_call ChRemoved 1 1%nat
    ∈ calls (exec [OComponent (Some "HP")] (init RefStore.empty)).
Proof.
  split; [reflexivity |].
  apply (hooks_fire_table_signals RefStore.empty [OComponent (Some "HP")]
           ChRemoved 1 1%nat).
  reflexivity.
Defined.

(** [store_sees_only_minted_ids] at the data call of one [set]. *)
Lemma store_sees_only_minted_ids_HP :
  CSet 1000 1 (Data (VNum 10))
    ∈ calls (exec [OSet 1000 (VNum 10) (Some "HP")] (init RefStore.empty)) /\
  component_of_call (CSet 1000 1 (Data (VNum 10))) = Some 1 /\
  exists k,
    components (exec [OSet 1000 (VNum 10) (Some "HP")] (init RefStore.empty)) !! k
      = Some 1.
Proof.
  assert (Hin : CSet 1000 1 (Data (VNum 10))
                  ∈ calls (exec [OSet 1000 (VNum 10) (Some "HP")]
                                (init RefStore.empty))).
  { replace (calls (exec [OSet 1000 (VNum 10) (Some "HP")] (init RefStore.empty)))
      with [CComponent; CSet 1 257 (Hook (FireEntity 0%nat));
            CSet 1 258 (Hook (FireEntity 1%nat));
            CSet 1 259 (Hook (FireEntityData 2%nat));
            CSet 1000 1 (Data (VNum 10))] by reflexivity.
    repeat constructor. }
  split; [exact Hin |]. split; [reflexivity |].
  apply (store_sees_only_minted_ids RefStore.empty
           [OSet 1000 (VNum 10) (Some "HP")] _ 1 Hin).
  reflexivity.
Defined.

(** [set_then_get] over the reference Store. *)
Lemma set_then_get_HP :
  (forall w e id p, RefStore.get (RefStore.set w e id p) e id = Some p) /\
  truthy "HP" = true /\
  exists s1 s2,
    set 1000 (VNum 10) (Some "HP") init0 = (Ok tt, s1) /\
    get 1000 (Some "HP") s1 = (Ok (Some (Data (VNum 10))), s2).
Proof.
  split; [exact ref_get_set |]. split; [reflexivity |].
  destruct (@set_then_get _ RefStore.store 1000 (VNum 10) "HP" init0 ref_get_set eq_refl)
    as (s1 & s2 & Hset & Hget & _).
  exists s1, s2. split; assumption.
Defined.

(** [add_then_has] over the reference Store. *)
Lemma add_then_has_HP :
  (forall w e id, RefStore.has (RefStore.add w e id) e id = true) /\
  truthy "HP" = true /\
  exists s1 s2,
    add 1000 (Some "HP") init0 = (Ok tt, s1) /\
    has 1000 (Some "HP") s1 = (Ok true, s2).
Proof.
  split; [exact ref_has_add |]. split; [reflexivity |].
  apply (@add_then_has _ RefStore.store 1000 "HP" init0 ref_has_add eq_refl).
Defined.

(** [remove_then_has] over the reference Store. *)
Lemma remove_then_has_HP :
  (forall w e id, RefStore.has (RefStore.remove w e id) e id = false) /\
  truthy "HP" = true /\
  exists s1 s2,
    remove 1000 (Some "HP") init0 = (Ok tt, s1) /\
    has 1000 (Some "HP") s1 = (Ok false, s2).
Proof.
  split; [exact ref_has_remove |]. split; [reflexivity |].
  apply (@remove_then_has _ RefStore.store 1000 "HP" init0 ref_has_remove eq_refl).
Defined.

(** [get_has_read_only_when_interned] after ["HP"] has been interned. *)
Lemma get_has_read_only_when_interned_HP :
  truthy "HP" = true /\
  components (snd (component (Some "HP") init0)) !! "HP" = Some 1 /\
  fst (has 1000 (Some "HP") (snd (component (Some "HP") init0))) = Ok false.
Proof.
  assert (Hid : components (snd (component (Some "HP") init0)) !! "HP" = Some 1)
    by reflexivity.
  split; [reflexivity |]. split; [exact Hid |].
  destruct (get_has_read_only_when_interned 1000 "HP" 1
              (snd (component (Some "HP") init0)) eq_refl Hid)
    as [_ Hhas].
  rewrite Hhas. reflexivity.
Defined.

(** [insert_aborts_midway] with one key before the empty key. *)
Lemma insert_aborts_midway_HP :
  Forall (fun k => truthy k = true) ["HP"] /\
  exists s',
    insert 1000 [VNum 10] (Some ["HP"]) init0 = (Ok tt, s') /\
    insert 1000 [VNum 10] (Some ["HP"; ""; "Name"]) init0
      = (Err assertion_failed, s').
Proof.
  assert (Hall : Forall (fun k => truthy k = true) ["HP"]).
  { repeat constructor. }
  split; [exact Hall |].
  apply (insert_aborts_midway 1000 [VNum 10] ["HP"] ["Name"] init0 Hall).
Defined.

(** X14.  With keys that pass the assertion, [insert] returns, whatever
    [values] is; it makes one data call per key, in the order of the
    keys, on the given entity and under the identifier of that key, and
    the data of each call is the array [values]. *)
Theorem insert_one_data_call_per_key {W : Type} `{Store W}
  (e : Z) (values : list Value) (keys : list string) (s : State W) :
  Forall (fun k => truthy k = true) keys ->
  exists s' new ids,
    insert e values (Some keys) s = (Ok tt, s') /\
    calls s' = calls s ++ new /\
    List.length ids = List.length keys /\
    data_sets new = (fun id => (e, id, VArray values)) <$> ids /\
    (forall i k id, keys !! i = Some k -> ids !! i = Some id ->
                    components s' !! k = Some id).
Proof.
  intros Hall. exact (insert_loop_trace e values keys s Hall).
Qed.

(** [insert_one_data_call_per_key] with two keys and one value. *)
Lemma insert_one_data_call_per_key_HP_Name :
  Forall (fun k => truthy k = true) ["HP"; "Name"] /\
  exists s', insert 1000 [VNum 10] (Some ["HP"; "Name"]) init0 = (Ok tt, s').
Proof.
  assert (Hall : Forall (fun k => truthy k = true) ["HP"; "Name"]).
  { repeat constructor. }
  split; [exact Hall |].
  destruct (insert_one_data_call_per_key 1000 [VNum 10] ["HP"; "Name"] init0 Hall)
    as (s' & _ & _ & Hrun & _).
  exists s'. exact Hrun.
Defined.

(** ** The Signals of an identifier *)

Section SignalsOfIdentifier.

Context {W : Type} `{Store W}.




End SignalsOfIdentifier.

